(** * asyncpg [setup.py]: the build command and its helpers

    A shallow embedding of [src/setup.py]: the regular-expression
    rewriting done by [build_ext._patch_cfile], the staleness scan, the
    Cython check, the directive parsing and the patch loop of
    [build_ext.finalize_options], and the module-level extraction of
    [VERSION]. *)

From Stdlib Require Import ZArith NArith List Ascii String Bool Lia.
From stdpp Require Import base option list gmap strings.

Import ListNotations.
Local Open Scope list_scope.

(** ** Text

    The C file is opened in text mode, so [src] is a Python [str]: a
    sequence of Unicode code points. *)

Definition char := N.
Definition text := list char.

(** A Rocq string literal, read as code points. *)
Definition str (s : string) : text :=
  map N_of_ascii (list_ascii_of_string s).

(** The class [\s] of [re] on [str] patterns: the characters for which
    [str.isspace()] holds. *)
Definition is_space (c : char) : bool :=
  ((9 <=? c) && (c <=? 13) || (28 <=? c) && (c <=? 32)
   || (c =? 133) || (c =? 160) || (c =? 5760)
   || (8192 <=? c) && (c <=? 8202)
   || (c =? 8232) || (c =? 8233) || (c =? 8239) || (c =? 8287)
   || (c =? 12288))%N.

(** ** The regular expressions of [_patch_cfile]

    With [re.X] the blanks and newlines of a pattern are dropped, so
    each of the three patterns is a sequence of escaped literals
    separated by [\s*] or [\s+]. *)

Inductive item :=
| Lit (l : text)
| SpaceStar
| SpacePlus.

Definition pattern := list item.

Fixpoint lstrip_space (t : text) : text :=
  match t with
  | c :: t' => if is_space c then lstrip_space t' else t
  | [] => []
  end.

Fixpoint strip_prefix (l t : text) : option text :=
  match l, t with
  | [], _ => Some t
  | a :: l', b :: t' => if (a =? b)%N then strip_prefix l' t' else None
  | _ :: _, [] => None
  end.

(** Matching at the head of [t]; the result is the text after the
    match.  [\s*] and [\s+] are greedy; see [re_match_greedy] below
    for the comparison with the backtracking reading. *)
Fixpoint match_at (p : pattern) (t : text) : option text :=
  match p with
  | [] => Some t
  | Lit l :: p' =>
      match strip_prefix l t with
      | Some t' => match_at p' t'
      | None => None
      end
  | SpaceStar :: p' => match_at p' (lstrip_space t)
  | SpacePlus :: p' =>
      match t with
      | c :: _ => if is_space c then match_at p' (lstrip_space t) else None
      | [] => None
      end
  end.

(** [re.sub(pattern, repl, src)] with the default [count=0]: scan from
    the left, replace every match, copy the characters in between.
    [fuel] bounds the number of scan steps. *)
Fixpoint sub_from (p : pattern) (repl : text) (fuel : nat) (t : text) : text :=
  match fuel with
  | O => t
  | S n =>
      match match_at p t with
      | Some rest => repl ++ sub_from p repl n rest
      | None =>
          match t with
          | [] => []
          | c :: t' => c :: sub_from p repl n t'
          end
      end
  end.

Definition re_sub (p : pattern) (repl : text) (t : text) : text :=
  sub_from p repl (S (length t)) t.

(** The number of replacements [re.sub] makes (the count that
    [re.subn] reports). *)
Fixpoint count_from (p : pattern) (fuel : nat) (t : text) : nat :=
  match fuel with
  | O => O
  | S n =>
      match match_at p t with
      | Some rest => S (count_from p n rest)
      | None =>
          match t with
          | [] => O
          | _ :: t' => count_from p n t'
          end
      end
  end.

Definition re_sub_count (p : pattern) (t : text) : nat :=
  count_from p (S (length t)) t.

(** Is there a position of [t] at which [p] matches? *)
Fixpoint has_match (p : pattern) (t : text) : bool :=
  match match_at p t with
  | Some _ => true
  | None =>
      match t with
      | [] => false
      | _ :: t' => has_match p t'
      end
  end.

(** *** The three rules, lines 119-171 *)

Definition coroutine_type_pattern : pattern :=
  [ SpaceStar; Lit (str "offsetof(__pyx_CoroutineObject,");
    SpaceStar; Lit (str "gi_weakreflist),");
    SpaceStar; Lit (str "0,");
    SpaceStar; Lit (str "0,");
    SpaceStar; Lit (str "__pyx_Coroutine_methods,");
    SpaceStar; Lit (str "__pyx_Coroutine_memberlist,");
    SpaceStar; Lit (str "__pyx_Coroutine_getsets,") ].

Definition coroutine_type_repl : text := str "
            offsetof(__pyx_CoroutineObject, gi_weakreflist),
            __Pyx_Coroutine_await, /* tp_iter */
            (iternextfunc) __Pyx_Generator_Next, /* tp_iternext */
            __pyx_Coroutine_methods,
            __pyx_Coroutine_memberlist,
            __pyx_Coroutine_getsets,
            ".

Definition get_qualname_pattern : pattern :=
  [ SpaceStar; Lit (str "__Pyx_Coroutine_get_qualname(__pyx_CoroutineObject");
    SpacePlus; Lit (str "*self)");
    SpaceStar; Lit (str "{");
    SpaceStar; Lit (str "Py_INCREF(self->gi_qualname);") ].

Definition get_qualname_repl : text := str "
            __Pyx_Coroutine_get_qualname(__pyx_CoroutineObject *self)
            {
                if (self->gi_qualname == NULL) { return __pyx_empty_unicode; }
                Py_INCREF(self->gi_qualname);
            ".

Definition get_name_pattern : pattern :=
  [ SpaceStar; Lit (str "__Pyx_Coroutine_get_name(__pyx_CoroutineObject");
    SpacePlus; Lit (str "*self)");
    SpaceStar; Lit (str "{");
    SpaceStar; Lit (str "Py_INCREF(self->gi_name);") ].

Definition get_name_repl : text := str "
            __Pyx_Coroutine_get_name(__pyx_CoroutineObject *self)
            {
                if (self->gi_name == NULL) { return __pyx_empty_unicode; }
                Py_INCREF(self->gi_name);
            ".

(** The text transformation of [_patch_cfile]: the three [re.sub]
    calls in order. *)
Definition patch_text (src : text) : text :=
  let src := re_sub coroutine_type_pattern coroutine_type_repl src in
  let src := re_sub get_qualname_pattern get_qualname_repl src in
  let src := re_sub get_name_pattern get_name_repl src in
  src.

(** *** Well-formed patterns and the conditions on a replacement *)

Definition no_space (l : text) : bool := forallb (fun c => negb (is_space c)) l.

(** Every literal is non-empty and free of [\s] characters, and every
    [\s*] or [\s+] is followed by a literal. *)
Fixpoint lits_ok (p : pattern) : bool :=
  match p with
  | [] => true
  | Lit l :: p' =>
      match l with [] => false | _ :: _ => no_space l end && lits_ok p'
  | _ :: p' =>
      match p' with Lit _ :: _ => true | _ => false end && lits_ok p'
  end.

Definition wf_pattern (p : pattern) : bool :=
  match p with
  | SpaceStar :: _ => lits_ok p
  | _ => false
  end.

(** Matching against a text of which only the beginning [s] is known. *)
Inductive outcome :=
| Fail            (* no continuation of [s] is matched *)
| Done (rest : text)
| More.           (* [s] is used up before the pattern is *)

Fixpoint scan_prefix (l s : text) : outcome :=
  match l, s with
  | [], _ => Done s
  | _ :: _, [] => More
  | a :: l', b :: s' => if (a =? b)%N then scan_prefix l' s' else Fail
  end.

Fixpoint scan (p : pattern) (s : text) : outcome :=
  match p with
  | [] => Done s
  | Lit l :: p' =>
      match scan_prefix l s with
      | Done s' => scan p' s'
      | o => o
      end
  | SpaceStar :: p' =>
      match lstrip_space s with
      | [] => More
      | s' => scan p' s'
      end
  | SpacePlus :: p' =>
      match s with
      | [] => More
      | c :: _ =>
          if is_space c then
            match lstrip_space s with
            | [] => More
            | s' => scan p' s'
            end
          else Fail
      end
  end.

Definition is_fail (o : outcome) : bool :=
  match o with Fail => true | _ => false end.

(** No match of [q] starts inside [r], except possibly in blanks at
    its end. *)
Fixpoint inert (q : pattern) (r : text) : bool :=
  (is_fail (scan q r) || forallb is_space r)
  && match r with [] => true | _ :: r' => inert q r' end.

(** No match of [q] that started earlier continues into [r]. *)
Fixpoint blocks (q : pattern) (r : text) : bool :=
  match q with
  | [] => true
  | Lit _ :: q' => blocks q' r
  | _ :: q' => is_fail (scan q r) && blocks q' r
  end.

Definition starts_with_space (r : text) : bool :=
  match r with c :: _ => is_space c | [] => false end.

Definition barrier (q : pattern) (r : text) : bool :=
  starts_with_space r && blocks q r && inert q r.

(** ** Python strings

    A [str] is a sequence of code points, as [text] above.  Only the
    operations that [setup.py] calls are modelled. *)

Fixpoint text_eqb (a b : text) : bool :=
  match a, b with
  | [], [] => true
  | x :: a', y :: b' => (x =? y)%N && text_eqb a' b'
  | _, _ => false
  end.

(** [a < b] on [str]: lexicographic, by code point. *)
Fixpoint str_ltb (a b : text) : bool :=
  match a, b with
  | _, [] => false
  | [], _ :: _ => true
  | x :: a', y :: b' =>
      if (x <? y)%N then true
      else if (y <? x)%N then false
      else str_ltb a' b'
  end.

Definition startswith (s prefix : text) : bool :=
  match strip_prefix prefix s with Some _ => true | None => false end.

Definition endswith (s suffix : text) : bool :=
  startswith (rev s) (rev suffix).

(** [str.lower()].  Outside ASCII the Unicode case mapping is left out:
    no such character lowers to a letter of ['false'] or ['true'], the
    only strings a lowered value is compared with. *)
Definition lower_char (c : char) : char :=
  if ((65 <=? c) && (c <=? 90))%N then (c + 32)%N else c.

Definition lower (s : text) : text := map lower_char s.

(** [s.partition(sep)] for a one-character [sep]. *)
Fixpoint partition (sep : char) (s : text) : text * text * text :=
  match s with
  | [] => ([], [], [])
  | c :: s' =>
      if (c =? sep)%N then ([], [sep], s')
      else let '(a, m, b) := partition sep s' in (c :: a, m, b)
  end.

(** [s.split(sep)] for a one-character [sep]. *)
Fixpoint split (sep : char) (s : text) : list text :=
  match s with
  | [] => [[]]
  | c :: s' =>
      if (c =? sep)%N then [] :: split sep s'
      else
        match split sep s' with
        | w :: ws => (c :: w) :: ws
        | [] => [[c]]
        end
  end.

Definition in_chars (chars : text) (c : char) : bool :=
  existsb (fun x => (x =? c)%N) chars.

Fixpoint lstrip (chars s : text) : text :=
  match s with
  | c :: s' => if in_chars chars c then lstrip chars s' else s
  | [] => []
  end.

Definition rstrip (chars s : text) : text := rev (lstrip chars (rev s)).

Definition strip (chars s : text) : text := rstrip chars (lstrip chars s).

(** The lines that iterating over a text file yields: each ends with
    its newline, the last one possibly without. *)
Fixpoint lines_from (cur : text) (s : text) : list text :=
  match s with
  | [] => match cur with [] => [] | _ => [rev cur] end
  | c :: s' =>
      if (c =? 10)%N then rev (c :: cur) :: lines_from [] s'
      else lines_from (c :: cur) s'
  end.

Definition readlines (content : text) : list text := lines_from [] content.

(** *** [os.path.splitext], as in [posixpath] *)

Definition sep : char := 47%N.      (* '/' *)
Definition extsep : char := 46%N.   (* '.' *)

(** [p.rfind(c)], counting from [i]; [-1] when [c] does not occur. *)
Fixpoint rfind_from (c : char) (p : text) (i : Z) : Z :=
  match p with
  | [] => (-1)%Z
  | x :: p' =>
      let r := rfind_from c p' (i + 1)%Z in
      if (0 <=? r)%Z then r else if (x =? c)%N then i else (-1)%Z
  end.

Definition rfind (c : char) (p : text) : Z := rfind_from c p 0.

(** The loop that skips leading dots: is there a character other than
    [extsep] among [name]? *)
Fixpoint has_non_dot (name : text) : bool :=
  match name with
  | [] => false
  | c :: name' => if (c =? extsep)%N then has_non_dot name' else true
  end.

Definition splitext (p : text) : text * text :=
  let sepIndex := rfind sep p in
  let dotIndex := rfind extsep p in
  if (sepIndex <? dotIndex)%Z then
    let filenameIndex := (sepIndex + 1)%Z in
    if has_non_dot (take (Z.to_nat (dotIndex - filenameIndex))
                         (drop (Z.to_nat filenameIndex) p))
    then (take (Z.to_nat dotIndex) p, drop (Z.to_nat dotIndex) p)
    else (p, [])
  else (p, []).

(** ** Values, exceptions, the world *)

(** A directive value: a [str], or the [bool] it is replaced by. *)
Inductive value :=
| VStr (s : text)
| VBool (b : bool).

Inductive exn :=
| RuntimeError (msg : text)
| AttributeError          (* 'bool' object has no attribute 'lower' *)
| OSError                 (* the file does not exist *)
| CythonizeError.         (* whatever [cythonize] raises *)

Inductive result (A : Type) :=
| Ok (a : A)
| Raise (e : exn).
Arguments Ok {A} a.
Arguments Raise {A} e.

(** [setuptools.Extension]: the name and the source list. *)
Record extension := Extension {
  ext_name : text;
  sources : list text;
}.

(** The attributes of the command object that [build_ext] adds;
    [_initialized] is [None] while the attribute does not exist. *)
Record build_ext := BuildExt {
  cython_always : bool;
  cython_annotate : option bool;
  cython_directives : option text;
  _initialized : option bool;
}.

(** A file: its modification time and its text.  The code compares
    modification times for equality only, and with the literal [0]. *)
Record file := File {
  f_mtime : Z;
  f_text : text;
}.

(** What the build command did, in order. *)
Inductive event :=
| EvCythonize (srcs : list extension)
| EvPatch (cfile : text).

Record state := State {
  self : build_ext;
  ext_modules : list extension;      (* self.distribution.ext_modules *)
  fs : gmap text file;               (* the working tree *)
  cython : option text;              (* Cython.__version__, if importable *)
  log : list event;
}.

(** Computations that read and write the [state] and may raise. *)
Definition M (A : Type) : Type := state → result A * state.

Definition ret {A} (a : A) : M A := fun st => (Ok a, st).
Definition raise {A} (e : exn) : M A := fun st => (Raise e, st).
Definition bind {A B} (m : M A) (k : A → M B) : M B :=
  fun st =>
    match m st with
    | (Ok a, st') => k a st'
    | (Raise e, st') => (Raise e, st')
    end.

Notation "'do' x <- m ; k" := (bind m (fun x => k))
  (at level 10, x name, m at level 100, k at level 200).
Notation "m ;; k" := (bind m (fun _ => k))
  (at level 100, k at level 200, right associativity).

Definition get : M state := fun st => (Ok st, st).
Definition put (st : state) : M unit := fun _ => (Ok tt, st).
Definition lift {A} (r : result A) : M A := fun st => (r, st).

Fixpoint for_each {A} (l : list A) (body : A → M unit) : M unit :=
  match l with
  | [] => ret tt
  | a :: l' => body a ;; for_each l' body
  end.

Definition path_exists (fs : gmap text file) (p : text) : bool :=
  match fs !! p with Some _ => true | None => false end.

(** [os.path.getmtime]. *)
Definition getmtime (p : text) : M Z :=
  do st <- get;
  match fs st !! p with
  | Some f => ret (f_mtime f)
  | None => raise OSError
  end.

(** ** [build_ext] *)

Definition set_ext_modules (exts : list extension) : M unit :=
  do st <- get;
  put (State (self st) exts (fs st) (cython st) (log st)).

Definition set_fs (fs' : gmap text file) : M unit :=
  do st <- get;
  put (State (self st) (ext_modules st) fs' (cython st) (log st)).

Definition set_self (s : build_ext) : M unit :=
  do st <- get;
  put (State s (ext_modules st) (fs st) (cython st) (log st)).

Definition record (e : event) : M unit :=
  do st <- get;
  put (State (self st) (ext_modules st) (fs st) (cython st) (log st ++ [e])).

(** [getattr(self, '_initialized', False)]. *)
Definition getattr_initialized (s : build_ext) : bool :=
  match _initialized s with Some b => b | None => false end.

(** Lines 38-48.  The inherited [initialize_options] sets attributes
    of [distutils] only. *)
Definition initialize_options : M unit :=
  do st <- get;
  if getattr_initialized (self st) then ret tt
  else set_self (BuildExt false None None (_initialized (self st))).

(** *** The staleness scan, lines 57-73 *)

Definition pyx : text := str ".pyx".

(** The companion C file of a source: [prefix + '.c']. *)
Definition cfile_of (sfile : text) : text :=
  let '(prefix, ext) := splitext sfile in
  prefix ++ str ".c".

(** What the scan carries along: the source list being rewritten, the
    dict [cfiles], and [need_cythonize]. *)
Record scan_state := ScanState {
  sc_sources : list text;
  sc_cfiles : gmap text Z;
  sc_need : bool;
}.

(** The body of the inner loop, for index [i] and entry [sfile]. *)
Definition scan_source (always : bool) (fs : gmap text file)
    (i : nat) (sfile : text) (sc : scan_state) : scan_state :=
  if endswith sfile pyx then
    let cfile := cfile_of sfile in
    if path_exists fs cfile && negb always then
      ScanState (<[i := cfile]> (sc_sources sc)) (sc_cfiles sc) (sc_need sc)
    else
      let timestamp :=
        match fs !! cfile with
        | Some f => f_mtime f
        | None => 0%Z
        end in
      ScanState (sc_sources sc) (<[cfile := timestamp]> (sc_cfiles sc)) true
  else sc.

(** [for i, sfile in enumerate(extension.sources)]: the iterator reads
    the list as it is when index [i] is reached; [n] entries are left. *)
Fixpoint scan_sources_from (always : bool) (fs : gmap text file)
    (n i : nat) (sc : scan_state) : scan_state :=
  match n with
  | O => sc
  | S n' =>
      match sc_sources sc !! i with
      | Some sfile =>
          scan_sources_from always fs n' (S i) (scan_source always fs i sfile sc)
      | None => sc
      end
  end.

Definition scan_extension (always : bool) (fs : gmap text file)
    (ext : extension) (cfiles : gmap text Z) (need : bool) : scan_state :=
  scan_sources_from always fs (length (sources ext)) 0
    (ScanState (sources ext) cfiles need).

(** [for extension in self.distribution.ext_modules]. *)
Fixpoint scan_extensions (always : bool) (fs : gmap text file)
    (exts : list extension) (cfiles : gmap text Z) (need : bool)
    : list extension * gmap text Z * bool :=
  match exts with
  | [] => ([], cfiles, need)
  | ext :: exts' =>
      let sc := scan_extension always fs ext cfiles need in
      let '(exts'', cfiles', need') :=
        scan_extensions always fs exts' (sc_cfiles sc) (sc_need sc) in
      (Extension (ext_name ext) (sc_sources sc) :: exts'', cfiles', need')
  end.

(** Lines 57-73 as a whole: [need_cythonize] starts as
    [self.cython_always], [cfiles] as the empty dict. *)
Definition staleness (always : bool) (fs : gmap text file)
    (exts : list extension) : list extension * gmap text Z * bool :=
  scan_extensions always fs exts ∅ always.

(** *** The Cython check, lines 76-84 *)

Definition min_cython_version : text := str "0.24".

Definition check_cython (cython : option text) : result unit :=
  match cython with
  | None =>
      Raise (RuntimeError
               (str "please install Cython to compile asyncpg from source"))
  | Some version =>
      if str_ltb version min_cython_version then
        Raise (RuntimeError
                 (str "asyncpg requires Cython version 0.24 or greater"))
      else Ok tt
  end.

(** *** The directives, lines 88-97 *)

(** [v.lower()], for whatever [v] is bound to. *)
Definition value_lower (v : value) : result text :=
  match v with
  | VStr s => Ok (lower s)
  | VBool _ => Raise AttributeError
  end.

Definition bind_result {A B} (r : result A) (k : A → result B) : result B :=
  match r with
  | Ok a => k a
  | Raise e => Raise e
  end.

(** The body of the loop over the directives. *)
Definition parse_directive (directives : gmap text value) (directive : text)
    : result (gmap text value) :=
  let '(k, _, v) := partition 61%N directive in
  let v := VStr v in
  bind_result (value_lower v) (fun l =>
  let v := if text_eqb l (str "false") then VBool false else v in
  bind_result (value_lower v) (fun l =>
  let v := if text_eqb l (str "true") then VBool true else v in
  Ok (<[k := v]> directives))).

Fixpoint parse_directives_from (directives : gmap text value)
    (tokens : list text) : result (gmap text value) :=
  match tokens with
  | [] => Ok directives
  | directive :: tokens' =>
      bind_result (parse_directive directives directive) (fun directives' =>
      parse_directives_from directives' tokens')
  end.

(** [None] and the empty string are false in [if self.cython_directives]. *)
Definition parse_directives (cython_directives : option text)
    : result (gmap text value) :=
  match cython_directives with
  | None | Some [] => Ok ∅
  | Some s => parse_directives_from ∅ (split 44%N s)
  end.

(** *** [_patch_cfile], lines 111-174 *)

Section BuildExt.

(** [Cython.Build.cythonize], from outside this repository: given the
    extensions, the directives, [annotate] and the working tree, it
    returns the new extensions and the working tree it leaves, or
    raises. *)
Variable cythonize :
  list extension → gmap text value → option bool → gmap text file →
  result (list extension * gmap text file).

(** The modification time a file written now gets. *)
Variable now : Z.

Definition _patch_cfile (cfile : text) : M unit :=
  record (EvPatch cfile) ;;
  do st <- get;
  match fs st !! cfile with
  | None => raise OSError
  | Some f =>
      let src := f_text f in
      let src := patch_text src in
      set_fs (<[cfile := File now src]> (fs st))
  end.

(** Lines 104-107. *)
Definition patch_changed (cfiles : list (text * Z)) : M unit :=
  for_each cfiles (fun '(cfile, timestamp) =>
    do mtime <- getmtime cfile;
    if (mtime =? timestamp)%Z then ret tt
    else
      (* The file was recompiled, patch *)
      _patch_cfile cfile).

Definition call_cythonize (directives : gmap text value) : M unit :=
  do st <- get;
  record (EvCythonize (ext_modules st)) ;;
  match cythonize (ext_modules st) directives
          (cython_annotate (self st)) (fs st) with
  | Raise e => raise e
  | Ok (exts, fs') => set_ext_modules exts ;; set_fs fs'
  end.

(** Lines 50-109.  The inherited [finalize_options] at the end sets
    attributes of [distutils] only. *)
Definition finalize_options : M unit :=
  do st <- get;
  if getattr_initialized (self st) then ret tt
  else
    let '(exts, cfiles, need_cythonize) :=
      staleness (cython_always (self st)) (fs st) (ext_modules st) in
    set_ext_modules exts ;;
    if need_cythonize then
      lift (check_cython (cython st)) ;;
      do directives <- lift (parse_directives (cython_directives (self st)));
      call_cythonize directives ;;
      patch_changed (map_to_list cfiles)
    else ret tt.

End BuildExt.

(** ** The version of the package, lines 181-190 *)

Definition version_prefix : text := str "__version__ =".

(** The characters stripped at line 186: blank, newline, single quote,
    double quote. *)
Definition version_strip_chars : text := [32; 10; 39; 34]%N.

Fixpoint find_version (lines : list text) : result text :=
  match lines with
  | [] =>
      Raise (RuntimeError
               (str "unable to read the version from asyncpg/__init__.py"))
  | line :: lines' =>
      if startswith line version_prefix then
        let '(_, _, version) := partition 61%N line in
        Ok (strip version_strip_chars version)
      else find_version lines'
  end.

(** [VERSION], from the text of [asyncpg/__init__.py]. *)
Definition read_version (content : text) : result text :=
  find_version (readlines content).

(** ** Concrete inputs for the examples *)

(** A stand-in for [cythonize] in examples: every [.pyx] source is
    compiled to its C file, written with modification time [stamp] and
    text [out], and replaced by it in the source list. *)
Definition example_cythonize (stamp : Z) (out : text)
    (exts : list extension) (directives : gmap text value)
    (annotate : option bool) (fs : gmap text file)
    : result (list extension * gmap text file) :=
  Ok (map (fun e =>
             Extension (ext_name e)
               (map (fun s => if endswith s pyx then cfile_of s else s)
                    (sources e))) exts,
      foldr (fun s fs' =>
               if endswith s pyx then <[cfile_of s := File stamp out]> fs'
               else fs')
            fs (concat (map sources exts))).

(** The extension that [setup.py] declares, lines 219-224. *)
Definition protocol_ext : extension :=
  Extension (str "asyncpg.protocol.protocol")
    [ str "asyncpg/protocol/record/recordobj.c";
      str "asyncpg/protocol/protocol.pyx" ].

Definition protocol_c : text := str "asyncpg/protocol/protocol.c".

(** The unpatched accessor, as Cython generates it. *)
Definition get_qualname_unpatched : text := str "
static PyObject *
__Pyx_Coroutine_get_qualname(__pyx_CoroutineObject *self)
{
    Py_INCREF(self->gi_qualname);
    return self->gi_qualname;
}".

(** ** Reference readings, for comparison with the code *)

(** The backtracking reading of a pattern: [\s*] and [\s+] may stop
    after any number of [\s] characters.  [re_match p t rest]: [p]
    matches a prefix of [t] and leaves [rest]. *)
Inductive re_match : pattern → text → text → Prop :=
| re_match_nil t : re_match [] t t
| re_match_lit l p t t' rest :
    strip_prefix l t = Some t' → re_match p t' rest →
    re_match (Lit l :: p) t rest
| re_match_star p ws t rest :
    forallb is_space ws = true → re_match p t rest →
    re_match (SpaceStar :: p) (ws ++ t) rest
| re_match_plus p ws t rest :
    ws ≠ [] → forallb is_space ws = true → re_match p t rest →
    re_match (SpacePlus :: p) (ws ++ t) rest.

(** The three rules of [_patch_cfile], in the order of the calls. *)
Definition patch_rules : list (pattern * text) :=
  [ (coroutine_type_pattern, coroutine_type_repl);
    (get_qualname_pattern, get_qualname_repl);
    (get_name_pattern, get_name_repl) ].

(** Stated from the claim's words, for the Cython check: a version is
    below another when its dotted release numbers are, compared as
    numbers ([0.9] is below [0.24]).  A component counts up to its
    first character that is not a digit; missing components count as
    zero. *)
Fixpoint leading_number (s : text) (acc : N) : N :=
  match s with
  | c :: s' =>
      if ((48 <=? c) && (c <=? 57))%N
      then leading_number s' (10 * acc + (c - 48))%N
      else acc
  | [] => acc
  end.

Definition release (version : text) : list N :=
  map (fun component => leading_number component 0%N) (split 46%N version).

Fixpoint release_ltb (a b : list N) : bool :=
  match a, b with
  | [], [] => false
  | [], y :: b' => if (0 <? y)%N then true else release_ltb [] b'
  | x :: a', [] => false
  | x :: a', y :: b' =>
      if (x <? y)%N then true
      else if (y <? x)%N then false
      else release_ltb a' b'
  end.

Definition version_below_spec (version minimum : text) : bool :=
  release_ltb (release version) (release minimum).

(** The timestamp the scan records for a C file: its modification
    time, or [0] when it does not exist. *)
Definition baseline (fs : gmap text file) (cfile : text) : Z :=
  match fs !! cfile with
  | Some f => f_mtime f
  | None => 0%Z
  end.

(** The scan of one source list, read as a map and a fold: which
    entries are rewritten, which C files are recorded. *)
Definition reuses_cfile (always : bool) (fs : gmap text file) (sfile : text) : bool :=
  endswith sfile pyx && (path_exists fs (cfile_of sfile) && negb always).

Definition regenerates (always : bool) (fs : gmap text file) (sfile : text) : bool :=
  endswith sfile pyx && negb (path_exists fs (cfile_of sfile) && negb always).

Definition rewrite_source (always : bool) (fs : gmap text file) (sfile : text) : text :=
  if reuses_cfile always fs sfile then cfile_of sfile else sfile.

Definition mark_source (always : bool) (fs : gmap text file)
    (cfiles : gmap text Z) (sfile : text) : gmap text Z :=
  if regenerates always fs sfile
  then <[cfile_of sfile := baseline fs (cfile_of sfile)]> cfiles
  else cfiles.

Definition is_cythonize (e : event) : bool :=
  match e with EvCythonize _ => true | EvPatch _ => false end.

(** How many times [cythonize] was called. *)
Definition cythonize_calls (log : list event) : nat :=
  length (filter (fun e => is_cythonize e = true) log).

(** The shape the qualified-name rule looks for, on its own. *)
Definition get_qualname_shape : text := str "
__Pyx_Coroutine_get_qualname(__pyx_CoroutineObject *self)
{
    Py_INCREF(self->gi_qualname);".

(* ===== PROOFS ===== *)

(** * Properties

    ** Lemmas on matching *)

Lemma strip_prefix_app l t t' : strip_prefix l t = Some t' → t = l ++ t'.
Proof.
  revert t; induction l as [|a l IH]; intros t H; simpl in *.
  - congruence.
  - destruct t as [|b t]; [discriminate|].
    destruct (N.eqb_spec a b); [|discriminate].
    subst; f_equal; auto.
Qed.

Lemma strip_prefix_ext l t t' w :
  strip_prefix l t = Some t' → strip_prefix l (t ++ w) = Some (t' ++ w).
Proof.
  revert t; induction l as [|a l IH]; intros t H; simpl in *.
  - by injection H as ->.
  - destruct t as [|b t]; [discriminate|]. simpl.
    destruct (a =? b)%N; [auto|discriminate].
Qed.

Lemma lstrip_space_length t : length (lstrip_space t) ≤ length t.
Proof.
  induction t as [|c t IH]; simpl; [lia|].
  destruct (is_space c); simpl; lia.
Qed.

Lemma lstrip_space_suffix t : ∃ m, t = m ++ lstrip_space t.
Proof.
  induction t as [|c t [m IH]]; simpl; [by exists []|].
  destruct (is_space c); [|by exists []].
  exists (c :: m); simpl; congruence.
Qed.

Lemma lstrip_space_ext t w :
  lstrip_space t ≠ [] → lstrip_space (t ++ w) = lstrip_space t ++ w.
Proof.
  induction t as [|c t IH]; simpl; [done|].
  destruct (is_space c); auto.
Qed.

Lemma lstrip_space_all t w :
  forallb is_space t = true → lstrip_space (t ++ w) = lstrip_space w.
Proof.
  induction t as [|c t IH]; simpl; [done|].
  destruct (is_space c); simpl; [auto|discriminate].
Qed.

Lemma lstrip_space_nil t : lstrip_space t = [] → forallb is_space t = true.
Proof.
  induction t as [|c t IH]; simpl; [done|].
  destruct (is_space c); simpl; [auto|discriminate].
Qed.

Lemma match_at_suffix p t rest : match_at p t = Some rest → ∃ m, t = m ++ rest.
Proof.
  revert t; induction p as [|[l| |] p IH]; intros t H; simpl in H.
  - exists []; simpl; congruence.
  - destruct (strip_prefix l t) as [t'|] eqn:E; [|discriminate].
    apply strip_prefix_app in E. destruct (IH _ H) as [m ->].
    exists (l ++ m). by rewrite E, app_assoc.
  - destruct (IH _ H) as [m Hm], (lstrip_space_suffix t) as [m' Hm'].
    exists (m' ++ m). by rewrite <- app_assoc, <- Hm.
  - destruct t as [|c t]; [discriminate|].
    destruct (is_space c); [|discriminate].
    destruct (IH _ H) as [m Hm], (lstrip_space_suffix (c :: t)) as [m' Hm'].
    exists (m' ++ m). by rewrite <- app_assoc, <- Hm.
Qed.

Lemma match_at_le p t rest : match_at p t = Some rest → length rest ≤ length t.
Proof.
  intros [m ->]%match_at_suffix. rewrite length_app; lia.
Qed.

Lemma match_at_lt p t rest :
  lits_ok p = true → p ≠ [] →
  match_at p t = Some rest → length rest < length t.
Proof.
  revert t; induction p as [|[l| |] p IH]; intros t Hok Hne H; [done|..];
    simpl in *.
  - destruct (strip_prefix l t) as [t'|] eqn:E; [|discriminate].
    apply strip_prefix_app in E. apply match_at_le in H.
    destruct l; [done|]. subst t; rewrite length_app; simpl; lia.
  - apply andb_true_iff in Hok as [Hl Hok].
    destruct p as [|[]]; try done.
    pose proof (lstrip_space_length t).
    apply IH in H; [lia|done|done].
  - apply andb_true_iff in Hok as [Hl Hok].
    destruct p as [|[]]; try done.
    destruct t as [|c t]; [discriminate|].
    destruct (is_space c) eqn:Ec; [|discriminate].
    pose proof (lstrip_space_length (c :: t)).
    apply IH in H; [lia|done|done].
Qed.

Lemma wf_pattern_lits p : wf_pattern p = true → lits_ok p = true ∧ p ≠ [].
Proof. destruct p as [|[]]; simpl; try done. Qed.

(** A match does not depend on the text after it. *)
Lemma match_at_ext p u rest w :
  lits_ok p = true →
  match_at p u = Some rest → match_at p (u ++ w) = Some (rest ++ w).
Proof.
  revert u; induction p as [|[l| |] p IH]; intros u Hok H; simpl in *.
  - by injection H as ->.
  - apply andb_true_iff in Hok as [_ Hok].
    destruct (strip_prefix l u) as [u'|] eqn:E; [|discriminate].
    rewrite (strip_prefix_ext _ _ _ w E). auto.
  - apply andb_true_iff in Hok as [Hl Hok].
    destruct p as [|[l| |] p]; try done.
    rewrite lstrip_space_ext; [auto|].
    intros Hn; rewrite Hn in H; simpl in H.
    simpl in Hok. destruct l; done.
  - apply andb_true_iff in Hok as [Hl Hok].
    destruct p as [|[l| |] p]; try done.
    destruct u as [|c u]; [discriminate|].
    change ((c :: u) ++ w) with (c :: (u ++ w)).
    cbv iota beta. destruct (is_space c) eqn:Ec; [|discriminate].
    change (c :: (u ++ w)) with ((c :: u) ++ w).
    rewrite lstrip_space_ext; [auto|].
    intros Hn; rewrite Hn in H; simpl in H.
    simpl in Hok. destruct l; done.
Qed.

(** ** [re.sub] as a recursion on the text *)

Lemma sub_from_fuel p r n m t :
  lits_ok p = true → p ≠ [] →
  length t < n → length t < m → sub_from p r n t = sub_from p r m t.
Proof.
  intros Hok Hne. revert m t.
  induction n as [|n IH]; intros m t Hn Hm; [lia|].
  destruct m as [|m]; [lia|]. simpl.
  destruct (match_at p t) as [rest|] eqn:E.
  - pose proof (match_at_lt _ _ _ Hok Hne E).
    f_equal. apply IH; lia.
  - destruct t as [|c t]; [done|]. simpl in *.
    f_equal. apply IH; lia.
Qed.

Lemma re_sub_eq p r t :
  lits_ok p = true → p ≠ [] →
  re_sub p r t =
    match match_at p t with
    | Some rest => r ++ re_sub p r rest
    | None =>
        match t with
        | [] => []
        | c :: t' => c :: re_sub p r t'
        end
    end.
Proof.
  intros Hok Hne. unfold re_sub at 1. simpl.
  destruct (match_at p t) as [rest|] eqn:E.
  - pose proof (match_at_lt _ _ _ Hok Hne E).
    f_equal. apply sub_from_fuel; auto; lia.
  - destruct t as [|c t]; [done|]. done.
Qed.

Lemma count_from_fuel p n m t :
  lits_ok p = true → p ≠ [] →
  length t < n → length t < m → count_from p n t = count_from p m t.
Proof.
  intros Hok Hne. revert m t.
  induction n as [|n IH]; intros m t Hn Hm; [lia|].
  destruct m as [|m]; [lia|]. simpl.
  destruct (match_at p t) as [rest|] eqn:E.
  - pose proof (match_at_lt _ _ _ Hok Hne E).
    f_equal. apply IH; lia.
  - destruct t as [|c t]; [done|]. simpl in *.
    apply IH; lia.
Qed.

Lemma re_sub_count_eq p t :
  lits_ok p = true → p ≠ [] →
  re_sub_count p t =
    match match_at p t with
    | Some rest => S (re_sub_count p rest)
    | None =>
        match t with
        | [] => O
        | _ :: t' => re_sub_count p t'
        end
    end.
Proof.
  intros Hok Hne. unfold re_sub_count at 1. simpl.
  destruct (match_at p t) as [rest|] eqn:E.
  - pose proof (match_at_lt _ _ _ Hok Hne E).
    f_equal. apply count_from_fuel; auto; lia.
  - destruct t as [|c t]; [done|]. done.
Qed.

(** Where nothing matches, [re.sub] returns the text itself. *)
Lemma re_sub_no_match p r t :
  lits_ok p = true → p ≠ [] →
  has_match p t = false → re_sub p r t = t.
Proof.
  intros Hok Hne. induction t as [|c t IH]; intros H;
    rewrite re_sub_eq by done; simpl in H;
    destruct (match_at p _); try done.
  f_equal; auto.
Qed.

(** ** A replacement as a barrier *)

Lemma scan_prefix_fail l s z :
  scan_prefix l s = Fail → strip_prefix l (s ++ z) = None.
Proof.
  revert s; induction l as [|a l IH]; intros s H; simpl in *; [done|].
  destruct s as [|b s]; [done|]. simpl.
  destruct (a =? b)%N; auto.
Qed.

Lemma scan_prefix_done l s s' z :
  scan_prefix l s = Done s' → strip_prefix l (s ++ z) = Some (s' ++ z).
Proof.
  revert s; induction l as [|a l IH]; intros s H; simpl in *.
  - by injection H as ->.
  - destruct s as [|b s]; [done|]. simpl.
    destruct (a =? b)%N; [auto|done].
Qed.

Lemma scan_fail p s z : scan p s = Fail → match_at p (s ++ z) = None.
Proof.
  revert s; induction p as [|[l| |] p IH]; intros s H; simpl in *.
  - done.
  - destruct (scan_prefix l s) as [|s'|] eqn:E; try done.
    + by rewrite (scan_prefix_fail _ _ z E).
    + rewrite (scan_prefix_done _ _ _ z E). auto.
  - destruct (lstrip_space s) as [|c s'] eqn:E; [done|].
    rewrite lstrip_space_ext by (by rewrite E). rewrite E. auto.
  - destruct s as [|c s]; [done|]. simpl.
    destruct (is_space c) eqn:Ec; [|done].
    simpl in H. rewrite Ec in H.
    destruct (lstrip_space s) as [|c' s'] eqn:E; [done|].
    rewrite lstrip_space_ext by (by rewrite E). rewrite E. auto.
Qed.

Lemma strip_prefix_split l u r z t' :
  no_space l = true → starts_with_space r = true →
  strip_prefix l (u ++ r ++ z) = Some t' →
  ∃ u', strip_prefix l u = Some u' ∧ t' = u' ++ r ++ z.
Proof.
  intros Hl Hr. revert u; induction l as [|a l IH]; intros u H.
  - simpl in H. injection H as <-. by exists u.
  - simpl in Hl. apply andb_true_iff in Hl as [Ha Hl].
    destruct u as [|b u].
    + destruct r as [|c r]; [done|]. simpl in H, Hr.
      destruct (N.eqb_spec a c) as [->|]; [|done].
      by rewrite Hr in Ha.
    + simpl in *. destruct (a =? b)%N; [auto|done].
Qed.

Lemma match_at_space_plus_head q r z :
  starts_with_space r = true →
  match_at (SpacePlus :: q) (r ++ z) = match_at q (lstrip_space (r ++ z)).
Proof. destruct r as [|c r]; [done|]. simpl. by intros ->. Qed.

(** A match that reaches a barrier [r] ends before it. *)
Lemma barrier_match q r u z rest :
  lits_ok q = true → starts_with_space r = true → blocks q r = true →
  match_at q (u ++ r ++ z) = Some rest →
  ∃ rest', match_at q u = Some rest' ∧ rest = rest' ++ r ++ z.
Proof.
  intros Hok Hr. revert u Hok.
  induction q as [|[l| |] q IH]; intros u Hok Hb H.
  - simpl in H. injection H as <-. by exists u.
  - simpl in Hok, Hb, H |- *.
    apply andb_true_iff in Hok as [Hl Hok].
    assert (no_space l = true) as Hns by (by destruct l).
    destruct (strip_prefix l (u ++ r ++ z)) as [t'|] eqn:E; [|done].
    destruct (strip_prefix_split _ _ _ _ _ Hns Hr E) as (u' & -> & ->).
    auto.
  - cbn [blocks] in Hb. apply andb_true_iff in Hb as [Hf Hb].
    cbn [lits_ok] in Hok. apply andb_true_iff in Hok as [_ Hok].
    destruct (scan (SpaceStar :: q) r) eqn:Es; try done.
    cbn [match_at] in H |- *.
    destruct (lstrip_space u) as [|c u'] eqn:Eu.
    + apply lstrip_space_nil in Eu.
      rewrite lstrip_space_all in H by done.
      change (match_at (SpaceStar :: q) (r ++ z) = Some rest) in H.
      by rewrite (scan_fail _ _ z Es) in H.
    + rewrite lstrip_space_ext, Eu in H by (by rewrite Eu). auto.
  - cbn [blocks] in Hb. apply andb_true_iff in Hb as [Hf Hb].
    cbn [lits_ok] in Hok. apply andb_true_iff in Hok as [_ Hok].
    destruct (scan (SpacePlus :: q) r) eqn:Es; try done.
    pose proof (scan_fail _ _ z Es) as Hnone.
    rewrite match_at_space_plus_head in Hnone by done.
    destruct u as [|c u].
    + simpl app in H. rewrite match_at_space_plus_head in H by done.
      by rewrite Hnone in H.
    + simpl in H |- *. destruct (is_space c) eqn:Ec; [|done].
      destruct (lstrip_space u) as [|c' u'] eqn:Eu.
      * apply lstrip_space_nil in Eu.
        rewrite lstrip_space_all in H by done. by rewrite Hnone in H.
      * rewrite lstrip_space_ext, Eu in H by (by rewrite Eu). auto.
Qed.

(** Matching in the output of [re.sub] before the first replacement
    implies matching in its input at the same place. *)
Lemma match_at_re_sub p r q t u rest :
  lits_ok p = true → p ≠ [] → lits_ok q = true →
  starts_with_space r = true → blocks q r = true →
  match_at q (u ++ re_sub p r t) = Some rest →
  ∃ rest', match_at q (u ++ t) = Some rest'.
Proof.
  intros Hp Hne Hq Hr Hb.
  revert u; induction t as [|c t IH]; intros u H;
    rewrite re_sub_eq in H by done.
  - destruct (match_at p []) as [t'|] eqn:E; [|eauto].
    by apply match_at_lt in E; [simpl in E; lia|..].
  - destruct (match_at p (c :: t)) as [t'|] eqn:E.
    + apply barrier_match in H as (rest' & H & _); try done.
      eauto using match_at_ext.
    + change (u ++ c :: re_sub p r t) with (u ++ [c] ++ re_sub p r t) in H.
      rewrite app_assoc in H. apply IH in H as [rest' H].
      rewrite <- app_assoc in H. eauto.
Qed.

(** ** Matches in the output of [re.sub] *)

Lemma has_match_head q t : has_match q t = false → match_at q t = None.
Proof. destruct t; simpl; by destruct (match_at q _). Qed.

Lemma has_match_suffix q m t : has_match q (m ++ t) = false → has_match q t = false.
Proof.
  induction m as [|c m IH]; [done|]. simpl.
  destruct (match_at q _); [done|auto].
Qed.

Lemma has_match_repl q r z :
  wf_pattern q = true → inert q r = true →
  has_match q z = false → has_match q (r ++ z) = false.
Proof.
  intros Hq Hi Hz. induction r as [|c r IH]; [done|].
  cbn [inert] in Hi. apply andb_true_iff in Hi as [Hc Hi].
  cbn [has_match app]. rewrite (IH Hi).
  change (c :: r ++ z) with ((c :: r) ++ z).
  apply orb_true_iff in Hc as [Hc|Hc].
  - destruct (scan q (c :: r)) eqn:Es; try done.
    by rewrite (scan_fail _ _ z Es).
  - destruct q as [|[] q]; try done. cbn [match_at].
    rewrite lstrip_space_all by done.
    apply has_match_head in Hz. cbn [match_at] in Hz. by rewrite Hz.
Qed.

(** If [q] matches in the input only where [p] does, the output of
    [re.sub p r] has no match of [q] at all. *)
Lemma has_match_re_sub p r q t :
  wf_pattern p = true → wf_pattern q = true → barrier q r = true →
  (∀ m s, t = m ++ s → match_at p s = None → match_at q s = None) →
  has_match q (re_sub p r t) = false.
Proof.
  intros [Hp Hne]%wf_pattern_lits Hwq Hb.
  destruct (wf_pattern_lits _ Hwq) as [Hq _].
  unfold barrier in Hb. apply andb_true_iff in Hb as [Hb Hi].
  apply andb_true_iff in Hb as [Hr Hb].
  remember (S (length t)) as n eqn:Hn.
  assert (length t < n) as Hlt by lia. clear Hn.
  revert t Hlt. induction n as [|n IH]; intros t Hlt Hpq; [lia|].
  rewrite re_sub_eq by done.
  destruct (match_at p t) as [rest|] eqn:E.
  - pose proof (match_at_lt _ _ _ Hp Hne E).
    destruct (match_at_suffix _ _ _ E) as [m0 ->].
    apply has_match_repl; [done..|]. apply IH; [lia|].
    intros m s -> Hs. apply (Hpq (m0 ++ m)); [by rewrite app_assoc|done].
  - destruct t as [|c t].
    + simpl. by rewrite (Hpq [] []).
    + cbn [has_match]. rewrite IH; cycle 1.
      { simpl in Hlt; lia. }
      { intros m s -> Hs. by apply (Hpq (c :: m)). }
      destruct (match_at q (c :: re_sub p r t)) as [x|] eqn:Eq; [|done].
      apply (match_at_re_sub p r q t [c]) in Eq as [rest' Eq]; try done.
      simpl in Eq. by rewrite (Hpq [] (c :: t)) in Eq.
Qed.

(** A rule leaves no match of its own pattern. *)
Lemma re_sub_self p r t :
  wf_pattern p = true → barrier p r = true →
  has_match p (re_sub p r t) = false.
Proof. intros Hp Hb. by apply has_match_re_sub. Qed.

(** A rule does not create matches of another pattern. *)
Lemma re_sub_other p r q t :
  wf_pattern p = true → wf_pattern q = true → barrier q r = true →
  has_match q t = false → has_match q (re_sub p r t) = false.
Proof.
  intros Hp Hq Hb Ht. apply has_match_re_sub; try done.
  intros m s -> _. by apply has_match_head, has_match_suffix with m.
Qed.

(** The facts about the three rules that the lemmas above ask for. *)
Lemma rules_wf :
  wf_pattern coroutine_type_pattern = true
  ∧ wf_pattern get_qualname_pattern = true
  ∧ wf_pattern get_name_pattern = true.
Proof. by vm_compute. Qed.

Lemma rules_barrier :
  barrier coroutine_type_pattern coroutine_type_repl = true
  ∧ barrier coroutine_type_pattern get_qualname_repl = true
  ∧ barrier coroutine_type_pattern get_name_repl = true
  ∧ barrier get_qualname_pattern get_qualname_repl = true
  ∧ barrier get_qualname_pattern get_name_repl = true
  ∧ barrier get_name_pattern get_name_repl = true.
Proof. by vm_compute. Qed.

Lemma patch_text_no_match src :
  has_match coroutine_type_pattern (patch_text src) = false
  ∧ has_match get_qualname_pattern (patch_text src) = false
  ∧ has_match get_name_pattern (patch_text src) = false.
Proof.
  destruct rules_wf as (W1 & W2 & W3).
  destruct rules_barrier as (B11 & B12 & B13 & B22 & B23 & B33).
  unfold patch_text. split; [|split].
  - apply re_sub_other; [exact W3|exact W1|exact B13|].
    apply re_sub_other; [exact W2|exact W1|exact B12|].
    apply re_sub_self; [exact W1|exact B11].
  - apply re_sub_other; [exact W3|exact W2|exact B23|].
    apply re_sub_self; [exact W2|exact B22].
  - apply re_sub_self; [exact W3|exact B33].
Qed.

(** ** Greedy matching is the backtracking matching

    In a well-formed pattern a literal after [\s*] or [\s+] starts with
    a character that is not [\s], so stopping early never helps. *)

Lemma lstrip_space_app_spaces ws t :
  forallb is_space ws = true → lstrip_space (ws ++ t) = lstrip_space t.
Proof. apply lstrip_space_all. Qed.

Lemma lstrip_space_id l t t' :
  l ≠ [] → no_space l = true → strip_prefix l t = Some t' → lstrip_space t = t.
Proof.
  destruct l as [|a l]; [done|]. intros _ Hl H.
  destruct t as [|b t]; [done|]. simpl in *.
  destruct (N.eqb_spec a b) as [->|]; [|done].
  apply andb_true_iff in Hl as [Hb _].
  by destruct (is_space b).
Qed.

Lemma lstrip_space_spaces t :
  ∃ ws, forallb is_space ws = true ∧ t = ws ++ lstrip_space t.
Proof.
  induction t as [|c t (ws & Hws & IH)]; [by exists []|]. simpl.
  destruct (is_space c) eqn:Ec; [|by exists []].
  exists (c :: ws). simpl. rewrite Ec, Hws. split; [done|congruence].
Qed.

Lemma re_match_greedy p t rest :
  lits_ok p = true → re_match p t rest ↔ match_at p t = Some rest.
Proof.
  intros Hok. split.
  - intros H. induction H as [t|l p t t' rest E H IH
                             |p ws t rest Hws H IH|p ws t rest Hne Hws H IH];
      simpl in *.
    + done.
    + apply andb_true_iff in Hok as [_ Hok]. rewrite E. auto.
    + apply andb_true_iff in Hok as [Hl Hok].
      rewrite lstrip_space_all by done.
      destruct p as [|[l0| |] p0]; try done.
      assert (lstrip_space t = t) as ->; [|by apply IH].
      inversion H; subst. simpl in Hok. apply andb_true_iff in Hok as [Hl' _].
      apply (lstrip_space_id l0 t t'); [by destruct l0|by destruct l0|done].
    + apply andb_true_iff in Hok as [Hl Hok].
      destruct ws as [|c ws]; [done|]. simpl in *.
      apply andb_true_iff in Hws as [Hc Hws]. rewrite Hc.
      rewrite lstrip_space_all by done.
      destruct p as [|[l0| |] p0]; try done.
      assert (lstrip_space t = t) as ->; [|by apply IH].
      inversion H; subst. simpl in Hok. apply andb_true_iff in Hok as [Hl' _].
      apply (lstrip_space_id l0 t t'); [by destruct l0|by destruct l0|done].
  - revert t. induction p as [|[l| |] p IH]; intros t H; simpl in *.
    + injection H as ->. constructor.
    + apply andb_true_iff in Hok as [_ Hok].
      destruct (strip_prefix l t) as [t'|] eqn:E; [|done].
      econstructor; eauto.
    + apply andb_true_iff in Hok as [_ Hok].
      destruct (lstrip_space_spaces t) as (ws & Hws & Ht).
      rewrite Ht at 1. constructor; auto.
    + apply andb_true_iff in Hok as [_ Hok].
      destruct t as [|c t]; [done|].
      destruct (is_space c) eqn:Ec; [|done].
      destruct (lstrip_space_spaces (c :: t)) as (ws & Hws & Ht).
      rewrite Ht at 1. constructor; auto.
      intros ->. simpl in Ht. rewrite Ec in Ht.
      pose proof (lstrip_space_length t) as Hlen.
      rewrite <- Ht in Hlen. simpl in Hlen. lia.
Qed.

(** ** The patch rules *)

Lemma patch_rules_wf p r : (p, r) ∈ patch_rules → wf_pattern p = true.
Proof.
  destruct rules_wf as (W1 & W2 & W3).
  unfold patch_rules. rewrite !elem_of_cons, elem_of_nil.
  intros [H|[H|[H|[]]]]; by injection H as -> ->.
Qed.

(** C4: the transformation of [_patch_cfile] is idempotent.  For every
    text, patching the patched text returns it unchanged, because in a
    patched text none of the three patterns matches anywhere; so the
    text made of the three corrected blocks is left as it is. *)
Theorem patch_text_idempotent :
  ∀ src : text,
    patch_text (patch_text src) = patch_text src
    ∧ has_match coroutine_type_pattern (patch_text src) = false
    ∧ has_match get_qualname_pattern (patch_text src) = false
    ∧ has_match get_name_pattern (patch_text src) = false
    ∧ patch_text (coroutine_type_repl ++ get_qualname_repl ++ get_name_repl)
      = coroutine_type_repl ++ get_qualname_repl ++ get_name_repl.
Proof.
  assert (∀ t,
    has_match coroutine_type_pattern t = false →
    has_match get_qualname_pattern t = false →
    has_match get_name_pattern t = false → patch_text t = t) as Hfix.
  { intros t H1 H2 H3.
    destruct rules_wf as ((W1 & N1)%wf_pattern_lits & (W2 & N2)%wf_pattern_lits
                          & (W3 & N3)%wf_pattern_lits).
    unfold patch_text.
    rewrite (re_sub_no_match coroutine_type_pattern) by done.
    rewrite (re_sub_no_match get_qualname_pattern) by done.
    by rewrite (re_sub_no_match get_name_pattern). }
  intros src. destruct (patch_text_no_match src) as (H1 & H2 & H3).
  split; [by apply Hfix|]. do 3 (split; [done|]).
  apply Hfix; by vm_compute.
Qed.

(** C5, as amended: a rule rewrites every occurrence of its shape that
    the scan from the left meets, not only the first: where the
    pattern matches, the match is replaced, the count goes up by one and
    the scan goes on behind the match; elsewhere one character is
    copied and the scan goes on. *)
Theorem patch_rule_rewrites_all (p : pattern) (r t : text) :
  (p, r) ∈ patch_rules →
  match match_at p t with
  | Some rest =>
      re_sub p r t = r ++ re_sub p r rest
      ∧ re_sub_count p t = S (re_sub_count p rest)
  | None =>
      match t with
      | [] => re_sub p r t = [] ∧ re_sub_count p t = 0
      | c :: t' =>
          re_sub p r t = c :: re_sub p r t'
          ∧ re_sub_count p t = re_sub_count p t'
      end
  end.
Proof.
  intros [Hok Hne]%patch_rules_wf%wf_pattern_lits.
  rewrite (re_sub_eq p r t), (re_sub_count_eq p t) by done.
  destruct (match_at p t); [done|]. by destruct t.
Qed.

Lemma patch_rule_rewrites_all_witness :
  (get_qualname_pattern, get_qualname_repl) ∈ patch_rules
  ∧ re_sub get_qualname_pattern get_qualname_repl
      (get_qualname_shape ++ get_qualname_unpatched)
    = get_qualname_repl
      ++ re_sub get_qualname_pattern get_qualname_repl get_qualname_unpatched.
Proof.
  assert ((get_qualname_pattern, get_qualname_repl) ∈ patch_rules) as Hin.
  { unfold patch_rules. rewrite !elem_of_cons. auto. }
  split; [exact Hin|].
  pose proof (patch_rule_rewrites_all get_qualname_pattern get_qualname_repl
                (get_qualname_shape ++ get_qualname_unpatched) Hin) as H.
  assert (match_at get_qualname_pattern
            (get_qualname_shape ++ get_qualname_unpatched)
          = Some get_qualname_unpatched) as E by (vm_compute; reflexivity).
  rewrite E in H. exact (proj1 H).
Defined.

(** C5, as stated, fails: in a document with two accessors the
    qualified-name rule makes two replacements. *)
Lemma patch_rule_rewrites_twice :
  ¬ (re_sub_count get_qualname_pattern
       (get_qualname_unpatched ++ get_qualname_unpatched) ≤ 1).
Proof. vm_compute. lia. Qed.
